(** * Service control: a shallow embedding of [src/src/service-control.ts]

    The controller talks to Redis through [get], [set] (with or without
    [EX]), [sadd], [srem] and [del], logs through a fire-and-forget logger,
    installs process hooks and sleeps.  Each async function becomes a
    computation in a state-and-error monad [M] whose state holds the Redis
    store, the trace of observable effects, a schedule of store faults and
    the number of store failures seen so far. *)

From stdpp Require Import base gmap strings list pretty.
From Stdlib Require Import ZArith Ascii.

(** ** JSON values and stored text *)

Set Warnings "-register-all".

(** A JSON value, as produced by [JSON.parse] and consumed by
    [JSON.stringify].  Numbers are kept as their canonical numeral text
    (they are only copied, never computed with).  Objects are association
    lists in insertion order. *)
Inductive json :=
| JNull
| JBool (b : bool)
| JNum (n : string)
| JStr (s : string)
| JArr (l : list json)
| JObj (fields : list (string * json)).

(** The text held in a Redis string value.  [Json j] is the text
    [JSON.stringify(j)] written by the controller; [Plain s] is any other
    text (written by an operator or another program).  A serialization
    never equals one of the bare words the code compares with
    ("running", "paused", "stopping", "stop", ...) nor the empty string. *)
Inductive text :=
| Plain (s : string)
| Json (j : json).

(** ** The Redis store *)

(** A key holds a string value with its optional expiry ([EX]) or a set. *)
Inductive entry :=
| EStr (t : text) (ttl : option Z)
| ESet (members : gset string).

Abbreviation store := (gmap string entry).

Inductive level := Debug | Info | Warn | Error.

(** Commands sent to Redis, as recorded in the trace. *)
Inductive cmd :=
| CGet (k : string)
| CSet (k : string) (t : text) (ttl : option Z)
| CSadd (k m : string)
| CSrem (k m : string)
| CDel (k : string).

(** Observable effects: store commands, log lines (message only), sleeps
    and the process hooks installed with [process.on]. *)
Inductive event :=
| EOp (c : cmd)
| ELog (l : level) (msg : string)
| ESleep (ms : Z)
| EHook (signal : string).

(** Rejections: a failed store command (including a WRONGTYPE reply), a
    [TypeError] thrown by the JavaScript code itself, and the exhaustion of
    the fuel bounding the pause loop. *)
Inductive err := StoreError | TypeError | OutOfFuel.

Record st := mkSt {
  store_of : store;
  trace : list event;
  faults : list bool;   (* next store commands fail where [true] *)
  failures : nat;       (* store commands that failed so far *)
  ticks : nat           (* [new Date()] calls so far *)
}.

Definition init (σ : store) : st := mkSt σ [] [] 0 0.

Definition M (A : Type) : Type := st -> (A + err) * st.

Global Instance M_ret : MRet M := fun A a s => (inl a, s).
Global Instance M_bind : MBind M := fun A B k m s =>
  match m s with
  | (inl a, s') => k a s'
  | (inr e, s') => (inr e, s')
  end.

Definition throw {A} (e : err) : M A := fun s => (inr e, s).

(** [try { m } catch (e) { h e }] *)
Definition catch {A} (m : M A) (h : err -> M A) : M A := fun s =>
  match m s with
  | (inr e, s') => h e s'
  | r => r
  end.

Definition emit (ev : event) (s : st) : st :=
  mkSt (store_of s) (trace s ++ [ev]) (faults s) (failures s) (ticks s).

Definition log (l : level) (msg : string) : M unit := fun s =>
  (inl tt, emit (ELog l msg) s).

Definition sleep (ms : Z) : M unit := fun s => (inl tt, emit (ESleep ms) s).

Definition process_on (signal : string) : M unit := fun s =>
  (inl tt, emit (EHook signal) s).

(** [new Date().toISOString()], read from a clock indexed by the number of
    earlier readings. *)
Definition date_now (clock : nat -> string) : M string := fun s =>
  (inl (clock (ticks s)),
   mkSt (store_of s) (trace s) (faults s) (failures s) (S (ticks s))).

(** Redis semantics of each command: [None] is an error reply
    (WRONGTYPE). *)
Definition r_get (k : string) (σ : store) : option (option text * store) :=
  match σ !! k with
  | None => Some (None, σ)
  | Some (EStr t _) => Some (Some t, σ)
  | Some (ESet _) => None
  end.

Definition r_set (k : string) (t : text) (ttl : option Z) (σ : store)
  : option (unit * store) :=
  Some (tt, <[k := EStr t ttl]> σ).

Definition r_sadd (k m : string) (σ : store) : option (unit * store) :=
  match σ !! k with
  | None => Some (tt, <[k := ESet {[m]}]> σ)
  | Some (ESet ms) => Some (tt, <[k := ESet ({[m]} ∪ ms)]> σ)
  | Some (EStr _ _) => None
  end.

(** Redis deletes a set once its last member is removed. *)
Definition r_srem (k m : string) (σ : store) : option (unit * store) :=
  match σ !! k with
  | None => Some (tt, σ)
  | Some (ESet ms) =>
      let ms' := ms ∖ {[m]} in
      Some (tt, if decide (ms' = ∅) then delete k σ else <[k := ESet ms']> σ)
  | Some (EStr _ _) => None
  end.

Definition r_del (k : string) (σ : store) : option (unit * store) :=
  Some (tt, delete k σ).

(** One awaited store command: it is recorded, consumes one entry of the
    fault schedule, and rejects with [StoreError] on a scheduled fault or
    an error reply. *)
Definition store_op {A} (c : cmd) (run : store -> option (A * store)) : M A :=
  fun s =>
    let tr := trace s ++ [EOp c] in
    let '(fail, fs) :=
      match faults s with [] => (false, []) | b :: fs => (b, fs) end in
    let rejected := (inr StoreError,
                     mkSt (store_of s) tr fs (S (failures s)) (ticks s)) in
    if fail then rejected else
    match run (store_of s) with
    | Some (a, σ') => (inl a, mkSt σ' tr fs (failures s) (ticks s))
    | None => rejected
    end.

Definition redis_get (k : string) : M (option text) := store_op (CGet k) (r_get k).
Definition redis_set (k : string) (t : text) (ttl : option Z) : M unit :=
  store_op (CSet k t ttl) (r_set k t ttl).
Definition redis_sadd (k m : string) : M unit := store_op (CSadd k m) (r_sadd k m).
Definition redis_srem (k m : string) : M unit := store_op (CSrem k m) (r_srem k m).
Definition redis_del (k : string) : M unit := store_op (CDel k) (r_del k).

(** ** JavaScript helpers *)

(** Truthiness of a value returned by [redis.get] ([string | null]). *)
Definition truthy (t : option text) : bool :=
  match t with
  | None | Some (Plain EmptyString) => false
  | _ => true
  end.

(** [x === lit] for a value returned by [redis.get] and a bare word. *)
Definition is_lit (t : option text) (lit : string) : bool :=
  match t with
  | Some (Plain s) => bool_decide (s = lit)
  | _ => false
  end.

Definition ascii_lower (c : ascii) : ascii :=
  let n := nat_of_ascii c in
  if (65 <=? n)%nat && (n <=? 90)%nat then ascii_of_nat (n + 32) else c.

(** [String.prototype.toLowerCase]; only [A-Z] can lower-case into one of
    the ASCII words the code compares with. *)
Fixpoint to_lower (s : string) : string :=
  match s with
  | EmptyString => EmptyString
  | String c s' => String (ascii_lower c) (to_lower s')
  end.

(** [t.toLowerCase() === w] for a bare ASCII word [w]. *)
Definition lower_is (t : text) (w : string) : bool :=
  match t with
  | Plain s => bool_decide (to_lower s = w)
  | Json _ => false
  end.

Fixpoint assoc (k : string) (f : list (string * json)) : option json :=
  match f with
  | [] => None
  | (k', v) :: f' => if bool_decide (k = k') then Some v else assoc k f'
  end.

(** Property assignment in an object literal: an existing key keeps its
    place, a new key is appended. *)
Definition obj_set (k : string) (v : json) (f : list (string * json))
  : list (string * json) :=
  if existsb (fun kv => bool_decide (kv.1 = k)) f
  then map (fun kv => if bool_decide (kv.1 = k) then (k, v) else kv) f
  else f ++ [(k, v)].

(** [{ ...base, k1: v1, ..., kn: vn }] *)
Definition obj_build (base fs : list (string * json)) : list (string * json) :=
  fold_left (fun acc kv => obj_set kv.1 kv.2 acc) fs base.

Fixpoint index_fields {A} (f : A -> json) (i : nat) (l : list A)
  : list (string * json) :=
  match l with
  | [] => []
  | x :: l' => (pretty (N.of_nat i), f x) :: index_fields f (S i) l'
  end.

(** The own enumerable properties copied by an object spread [...j]. *)
Definition spread (j : json) : list (string * json) :=
  match j with
  | JObj f => f
  | JArr l => index_fields (fun x => x) 0 l
  | JStr s =>
      index_fields (fun c => JStr (String c EmptyString)) 0 (String.list_ascii_of_string s)
  | _ => []
  end.

(** [j.k]: reading a property of [null] throws. *)
Definition get_field (j : json) (k : string) : M (option json) :=
  match j with
  | JNull => throw TypeError
  | JObj f => mret (assoc k f)
  | _ => mret None
  end.

(** [o ?? d] *)
Definition nullish (o : option json) (d : json) : json :=
  match o with
  | None | Some JNull => d
  | Some v => v
  end.

(** ** The controller *)

Inductive service_state := Running | Paused | Stopping.

Definition state_str (s : service_state) : string :=
  match s with Running => "running" | Paused => "paused" | Stopping => "stopping" end.

Inductive scalar := SStr (s : string) | SNum (n : string) | SBool (b : bool).

Definition scalar_json (v : scalar) : json :=
  match v with SStr s => JStr s | SNum n => JNum n | SBool b => JBool b end.

(** [ServiceControllerOptions] without the Redis client and the logger;
    [config] is flattened into its three optional fields. *)
Record options := mkOptions {
  serviceName : string;
  appType : string;
  tags : option (list string);
  meta : option (list (string * scalar));
  cfg_prefix : option string;
  cfg_heartbeatTtl : option Z;
  cfg_pollMs : option Z
}.

(** What the controller reads from its process: [os.hostname()],
    [process.pid] and the six characters of [Math.random()] used in the
    instance id. *)
Record host := mkHost { hostname : string; pid : N; rand6 : string }.

Inductive applied := ANone | APause | AResume | AStop.

Definition applied_eqb (a b : applied) : bool :=
  match a, b with
  | ANone, ANone | APause, APause | AResume, AResume | AStop, AStop => true
  | _, _ => false
  end.

Definition state_eqb (a b : service_state) : bool :=
  match a, b with
  | Running, Running | Paused, Paused | Stopping, Stopping => true
  | _, _ => false
  end.

Section Controller.

(** [JSON.parse] on text that the controller did not write itself
    ([None]: a [SyntaxError]). *)
Variable parse_text : string -> option json.
(** The value of the [k]-th [new Date().toISOString()]. *)
Variable clock : nat -> string.
Variable opts : options.
Variable proc : host.

Definition prefix : string := default "controlService:control" (cfg_prefix opts).
Definition heartbeatTtl : Z := default 30%Z (cfg_heartbeatTtl opts).
Definition pollMs : Z := default 1000%Z (cfg_pollMs opts).

Definition instanceId : string :=
  hostname proc +:+ "-" +:+ pretty (pid proc) +:+ "-" +:+ rand6 proc.

Definition servicesSetKey : string := prefix +:+ ":services".
Definition instancesSetKey : string :=
  prefix +:+ ":service:" +:+ serviceName opts +:+ ":instances".
Definition instanceKey : string :=
  prefix +:+ ":service:" +:+ serviceName opts +:+ ":instance:" +:+ instanceId.
Definition stateKey : string := prefix +:+ ":state:" +:+ serviceName opts.
Definition signalKey : string := prefix +:+ ":signal:" +:+ serviceName opts.

Definition tags_json : json := JArr (map JStr (default [] (tags opts))).
Definition meta_json : json :=
  JObj (map (fun kv => (kv.1, scalar_json kv.2)) (default [] (meta opts))).

(** The identity fields every descriptor write sets. *)
Definition identity_fields : list (string * json) :=
  [("serviceName", JStr (serviceName opts)); ("appType", JStr (appType opts));
   ("instanceId", JStr instanceId); ("hostname", JStr (hostname proc));
   ("pid", JNum (pretty (pid proc)))].

(** [raw ? JSON.parse(raw) : {}], a parse failure giving [{}]. *)
Definition parse_payload (raw : option text) : json :=
  if truthy raw then
    match raw with
    | Some (Json j) => j
    | Some (Plain s) => default (JObj []) (parse_text s)
    | None => JObj []
    end
  else JObj [].

(** [getState] *)
Definition getState : M service_state :=
  state ← redis_get stateKey;
  if is_lit state "paused" then mret Paused
  else if is_lit state "stopping" then mret Stopping
  else mret Running.

(** [register] *)
Definition register : M unit :=
  now ← date_now clock;
  let payload := JObj (identity_fields ++
    [("startedAt", JStr now); ("lastSeen", JStr now);
     ("status", JStr "running"); ("tags", tags_json); ("meta", meta_json)]) in
  redis_sadd servicesSetKey (serviceName opts);;
  redis_sadd instancesSetKey instanceId;;
  redis_set instanceKey (Json payload) (Some heartbeatTtl);;
  existingState ← redis_get stateKey;
  (if negb (truthy existingState)
   then redis_set stateKey (Plain "running") None else mret ());;
  pendingSignal ← redis_get signalKey;
  (if is_lit existingState "stopping" && negb (is_lit pendingSignal "stop")
   then redis_set stateKey (Plain "running") None;;
        log Warn "Recovered from stale stopping state"
   else mret ());;
  process_on "SIGINT";;
  process_on "SIGTERM";;
  log Info "Service registered".

(** [heartbeat(statusOverride?)] *)
Definition heartbeat (statusOverride : option service_state) : M unit :=
  now ← date_now clock;
  raw ← redis_get instanceKey;
  let payload := parse_payload raw in
  startedAt ← get_field payload "startedAt";
  status ← (match statusOverride with Some s => mret s | None => getState end);
  let body := obj_build (spread payload) (identity_fields ++
    [("startedAt", nullish startedAt (JStr now)); ("lastSeen", JStr now);
     ("status", JStr (state_str status)); ("tags", tags_json); ("meta", meta_json)]) in
  redis_set instanceKey (Json (JObj body)) (Some heartbeatTtl).

(** [applySignal] *)
Definition applySignal : M applied :=
  signal ← redis_get signalKey;
  match signal with
  | Some t =>
      if negb (truthy signal) then mret ANone
      else if lower_is t "pause" then
        redis_set stateKey (Plain "paused") None;;
        redis_del signalKey;;
        log Warn "Pause signal applied";;
        mret APause
      else if lower_is t "resume" then
        redis_set stateKey (Plain "running") None;;
        redis_del signalKey;;
        log Warn "Resume signal applied";;
        mret AResume
      else if lower_is t "stop" then
        redis_set stateKey (Plain "stopping") None;;
        redis_del signalKey;;
        log Warn "Stop signal applied";;
        mret AStop
      else
        redis_del signalKey;;
        log Warn "Unknown signal received";;
        mret ANone
  | None => mret ANone
  end.

(** The [while (true)] loop of [waitIfPaused], run for at most [fuel]
    iterations. *)
Fixpoint pause_loop (fuel : nat) : M unit :=
  match fuel with
  | O => throw OutOfFuel
  | S fuel' =>
      heartbeat (Some Paused);;
      sig ← applySignal;
      state ← getState;
      if applied_eqb sig AStop || state_eqb state Stopping then mret ()
      else if state_eqb state Running then log Info "Resumed from pause"
      else sleep pollMs;; pause_loop fuel'
  end.

(** [waitIfPaused] *)
Definition waitIfPaused (fuel : nat) : M unit :=
  applySignal;;
  state ← getState;
  if negb (state_eqb state Paused) then mret ()
  else
    log Info "Service paused. Waiting for resume signal...";;
    pause_loop fuel.

(** [shouldStop] *)
Definition shouldStop : M bool :=
  sig ← applySignal;
  state ← getState;
  mret (applied_eqb sig AStop || state_eqb state Stopping).

(** The body of the [try] block of [shutdown]. *)
Definition shutdown_body (reason : option string) : M unit :=
  redis_set stateKey (Plain "stopping") None;;
  raw ← redis_get instanceKey;
  let payload := parse_payload raw in
  sa ← get_field payload "startedAt";
  startedAt ← (match sa with
               | None | Some JNull => d ← date_now clock; mret (JStr d)
               | Some v => mret v
               end);
  lastSeen ← date_now clock;
  let body := obj_build (spread payload) (identity_fields ++
    [("startedAt", startedAt); ("lastSeen", JStr lastSeen);
     ("status", JStr "stopping"); ("tags", tags_json); ("meta", meta_json);
     ("stopReason", JStr (default "manual" reason))]) in
  redis_set instanceKey (Json (JObj body)) (Some 10%Z);;
  redis_srem instancesSetKey instanceId.

(** [shutdown(reason?)]: [try .. catch .. finally]. *)
Definition shutdown (reason : option string) : M unit :=
  catch (shutdown_body reason) (fun _ => log Error "Error during shutdown");;
  log Info "Shutdown complete".

End Controller.

(** ** The logger of [createLogger] *)

(** A value of a log meta object: the [Error] given to [logger.error]
    (kept with its message), or any other value. *)
Inductive meta_val := MError (message : string) | MValue (j : json).

(** The first argument of [logger.error]: a string or an [Error]. *)
Inductive log_message := LText (s : string) | LErr (message : string).

Fixpoint meta_get (k : string) (f : list (string * meta_val)) : option meta_val :=
  match f with
  | [] => None
  | (k', v) :: f' => if bool_decide (k = k') then Some v else meta_get k f'
  end.

(** Property assignment in an object literal (see [obj_set]). *)
Definition meta_set (k : string) (v : meta_val) (f : list (string * meta_val))
  : list (string * meta_val) :=
  if existsb (fun kv => bool_decide (kv.1 = k)) f
  then map (fun kv => if bool_decide (kv.1 = k) then (k, v) else kv) f
  else f ++ [(k, v)].

(** The [error] method of the returned logger: the message and the meta
    object it hands to [winstonLogger.error]; [{ error: message, ...meta }]
    for an [Error], where spreading an absent [meta] copies nothing. *)
Definition logger_error (message : log_message) (meta : option (list (string * meta_val)))
  : string * option (list (string * meta_val)) :=
  match message with
  | LErr m =>
      (m, Some (fold_left (fun acc kv => meta_set kv.1 kv.2 acc) (default [] meta)
                 [("error", MError m)]))
  | LText s => (s, meta)
  end.

(** ** Store shapes used in the statements *)

(** A key the code uses as a set holds no string, and a key it uses as a
    string holds no set: otherwise Redis answers WRONGTYPE. *)
Definition set_key_ok (σ : store) (k : string) : bool :=
  match σ !! k with Some (EStr _ _) => false | _ => true end.
Definition str_key_ok (σ : store) (k : string) : bool :=
  match σ !! k with Some (ESet _) => false | _ => true end.
Definition well_typed (o : options) (p : host) (σ : store) : bool :=
  set_key_ok σ (servicesSetKey o) && set_key_ok σ (instancesSetKey o) &&
  str_key_ok σ (instanceKey o p) && str_key_ok σ (stateKey o) &&
  str_key_ok σ (signalKey o).

(** Members of the set at [k] (an absent key is the empty set). *)
Definition set_members (σ : store) (k : string) : gset string :=
  match σ !! k with Some (ESet ms) => ms | _ => ∅ end.

(** A run in which a store failure is never swallowed: whenever a store
    command failed, the computation rejects with [StoreError]. *)
Definition propagates {A} (m : M A) : Prop :=
  ∀ s, failures (m s).2 ≠ failures s → (m s).1 = inr StoreError.

(** A computation that writes no key outside [K]: every other key reads
    the same before and after, whatever the state, faults included. *)
Definition frame {A} (K : list string) (m : M A) : Prop :=
  ∀ s k, k ∉ K → store_of (m s).2 !! k = store_of s !! k.

(** A computation only appends to the trace. *)
Definition grows {A} (m : M A) : Prop :=
  ∀ s, ∃ tr, trace (m s).2 = trace s ++ tr.

(** A computation whose successful runs end with the effects [evs]. *)
Definition ends_with {A} (evs : list event) (m : M A) : Prop :=
  ∀ s a s', m s = (inl a, s') → ∃ tr, trace s' = trace s ++ tr ++ evs.

(** A small concrete controller for the witnesses. *)
Definition demo_opts : options := mkOptions "svc" "api" None None None None None.
Definition demo_host : host := mkHost "host" 42 "abcdef".
Definition demo_clock : nat -> string := fun _ => "2026-01-01T00:00:00.000Z".
Definition demo_parse : string -> option json := fun _ => None.

Definition demo_store_stopping : store :=
  <[stateKey demo_opts := EStr (Plain "stopping") None]> ∅.
Definition demo_store_STOP : store :=
  <[signalKey demo_opts := EStr (Plain "STOP") None]> demo_store_stopping.

Definition demo_store_PAUSE : store :=
  <[signalKey demo_opts := EStr (Plain "PAUSE") None]> ∅.
Definition demo_store_paused_stop : store :=
  <[signalKey demo_opts := EStr (Plain "stop") None]>
    (<[stateKey demo_opts := EStr (Plain "paused") None]> ∅).

Definition demo_store_garbage : store :=
  <[stateKey demo_opts := EStr (Plain "Paused!") None]> ∅.
Definition demo_store_registered : store :=
  <[instancesSetKey demo_opts := ESet {[instanceId demo_host]}]>
    (<[instanceKey demo_opts demo_host :=
        EStr (Json (JObj [("startedAt", JStr "2025-12-31T23:59:59.000Z")])) (Some 30%Z)]> ∅).

Definition demo_store_empty_state : store :=
  <[stateKey demo_opts := EStr (Plain "") None]> ∅.
Definition demo_store_paused : store :=
  <[stateKey demo_opts := EStr (Plain "paused") None]> ∅.

(** Stores and options for the further properties. *)
Definition demo_store_bad_instances : store :=
  <[instancesSetKey demo_opts := EStr (Plain "x") None]> ∅.
Definition demo_store_null_descriptor : store :=
  <[instanceKey demo_opts demo_host := EStr (Json JNull) (Some 30%Z)]> ∅.
Definition demo_meta : list (string * meta_val) :=
  [("error", MValue (JStr "timeout")); ("requestId", MValue (JNum "7"))].
Definition demo_opts_other : options := mkOptions "svc2" "api" None None None None None.

(** * Proofs *)

(** ** Key schema *)

Lemma append_cancel_l (p a b : string) : p +:+ a = p +:+ b → a = b.
Proof. induction p as [|c p IH]; simpl; [done|]. intros H; injection H; auto. Qed.

(** The five keys of one controller are pairwise distinct, whatever the
    prefix, the service name and the instance id. *)
Lemma keys_distinct (o : options) (p : host) :
  stateKey o ≠ signalKey o ∧ instanceKey o p ≠ stateKey o ∧
  instanceKey o p ≠ signalKey o ∧ instancesSetKey o ≠ instanceKey o p ∧
  instancesSetKey o ≠ stateKey o ∧ instancesSetKey o ≠ signalKey o ∧
  servicesSetKey o ≠ instancesSetKey o ∧ servicesSetKey o ≠ instanceKey o p ∧
  servicesSetKey o ≠ stateKey o ∧ servicesSetKey o ≠ signalKey o.
Proof.
  unfold servicesSetKey, instancesSetKey, instanceKey, stateKey, signalKey.
  repeat split; intros H; repeat (apply append_cancel_l in H);
    simpl in H; repeat (injection H as H); discriminate H.
Qed.

Ltac keys_facts o p :=
  let H := fresh "K" in
  pose proof (keys_distinct o p) as H;
  destruct H as (?&?&?&?&?&?&?&?&?&?).

Lemma lower_is_plain s w : lower_is (Plain s) w = bool_decide (to_lower s = w).
Proof. done. Qed.

(** Case analysis on a boolean test, closing the case that evaluation
    refutes. *)
Ltac destruct_test b :=
  let E := fresh "E" in
  destruct b eqn:E; try (vm_compute in E; discriminate E);
  try (rewrite lower_is_plain in E;
       first [apply bool_decide_eq_true in E | apply bool_decide_eq_false in E];
       congruence).

Arguments truthy : simpl never.
Arguments is_lit : simpl never.
Arguments lower_is : simpl never.

(** Symbolic execution of a fault-free run: unfold the monad and the
    Redis commands, then alternate map simplification, reduction and case
    analysis on the store lookups and on the JavaScript tests. *)
Ltac run :=
  unfold mbind, M_bind, mret, M_ret, store_op, redis_get, redis_set,
     redis_sadd, redis_srem, redis_del, r_get, r_set, r_sadd, r_srem, r_del,
     log, emit, process_on, date_now, init, catch, throw, sleep;
  repeat first
    [ progress simplify_map_eq
    | progress (cbn -[servicesSetKey instancesSetKey instanceKey stateKey
                      signalKey identity_fields tags_json meta_json
                      truthy is_lit lower_is])
    | match goal with
      | |- context [match ?m !! ?k with _ => _ end] =>
          destruct (m !! k) as [[]|] eqn:?
      | |- context [truthy ?x] => destruct_test (truthy x)
      | |- context [is_lit ?x ?w] => destruct_test (is_lit x w)
      | |- context [lower_is ?x ?w] => destruct_test (lower_is x w)
      | |- context [match assoc ?k ?f with _ => _ end] =>
          destruct (assoc k f) as [[]|] eqn:?
      | |- context [decide _] => case_decide
      end ].

Lemma is_lit_true x w : is_lit x w = true → x = Some (Plain w).
Proof. destruct x as [[s|]|]; simpl; try done. by intros ->%bool_decide_eq_true. Qed.

Lemma is_lit_plain s w : is_lit (Some (Plain s)) w = bool_decide (s = w).
Proof. done. Qed.

Lemma truthy_false x : truthy x = false → x = None ∨ x = Some (Plain "").
Proof. destruct x as [[[|c s]|]|]; simpl; by auto. Qed.

Ltac clean_tests :=
  repeat match goal with
  | E : is_lit _ _ = true |- _ => apply is_lit_true in E; simplify_eq
  | E : truthy _ = false |- _ => apply truthy_false in E as [E|E]; simplify_eq
  end.

(** ** C1: stale-state recovery in [register] *)

(** C1. With service-wide state "stopping", [register] on a well-typed
    store overwrites the state with "running" when no signal is pending,
    and leaves it "stopping" when the pending signal is exactly "stop". *)
Theorem register_stale_recovery (clock : nat -> string) (o : options) (p : host)
    (σ : store) (ttl : option Z) :
  well_typed o p σ = true →
  σ !! stateKey o = Some (EStr (Plain "stopping") ttl) →
  (σ !! signalKey o = None →
     ∃ s', register clock o p (init σ) = (inl (), s') ∧
       store_of s' !! stateKey o = Some (EStr (Plain "running") None)) ∧
  (∀ sttl, σ !! signalKey o = Some (EStr (Plain "stop") sttl) →
     ∃ s', register clock o p (init σ) = (inl (), s') ∧
       store_of s' !! stateKey o = Some (EStr (Plain "stopping") ttl)).
Proof.
  intros Hwt Hst. keys_facts o p.
  unfold well_typed, set_key_ok, str_key_ok in Hwt.
  split; [intros Hsig | intros sttl Hsig]; unfold register; run;
    try discriminate; eexists; split; try reflexivity; by simplify_map_eq.
Qed.

Lemma register_stale_recovery_witness :
  (demo_store_stopping !! signalKey demo_opts = None →
     ∃ s', register demo_clock demo_opts demo_host (init demo_store_stopping)
             = (inl (), s') ∧
       store_of s' !! stateKey demo_opts = Some (EStr (Plain "running") None)) ∧
  (∀ sttl, demo_store_stopping !! signalKey demo_opts = Some (EStr (Plain "stop") sttl) →
     ∃ s', register demo_clock demo_opts demo_host (init demo_store_stopping)
             = (inl (), s') ∧
       store_of s' !! stateKey demo_opts = Some (EStr (Plain "stopping") None)).
Proof.
  apply (register_stale_recovery demo_clock demo_opts demo_host demo_store_stopping None);
    vm_compute; reflexivity.
Defined.

(** ** C2: a stop signal written in another case *)

(** C2. With state "stopping" and the pending signal "STOP", which
    [applySignal] treats as a stop signal, [register] compares with the
    exact text "stop", overwrites the state with "running" and leaves the
    signal pending. *)
Theorem register_overrides_uppercase_stop :
  (applySignal demo_opts (init demo_store_STOP)).1 = inl AStop ∧
  (register demo_clock demo_opts demo_host (init demo_store_STOP)).1 = inl () ∧
  store_of (register demo_clock demo_opts demo_host (init demo_store_STOP)).2
    !! stateKey demo_opts = Some (EStr (Plain "running") None) ∧
  store_of (register demo_clock demo_opts demo_host (init demo_store_STOP)).2
    !! signalKey demo_opts = Some (EStr (Plain "STOP") None).
Proof. repeat split; vm_compute; reflexivity. Qed.

(** ** C3: a signal is consumed once *)

(** C3. From a store whose signal key holds one recognized signal (in any
    case), a first [applySignal] returns its kind, writes the matching
    state and deletes the signal; a second one returns [ANone] and leaves
    the store as the first one left it. *)
Theorem applySignal_consume_once (o : options) (σ : store) (t : text)
    (ttl : option Z) (w : string) (a : applied) (target : string) :
  (w = "pause" ∧ a = APause ∧ target = "paused") ∨
  (w = "resume" ∧ a = AResume ∧ target = "running") ∨
  (w = "stop" ∧ a = AStop ∧ target = "stopping") →
  σ !! signalKey o = Some (EStr t ttl) →
  lower_is t w = true →
  let '(r1, s1) := applySignal o (init σ) in
  let '(r2, s2) := applySignal o s1 in
  r1 = inl a ∧
  store_of s1 = delete (signalKey o) (<[stateKey o := EStr (Plain target) None]> σ) ∧
  r2 = inl ANone ∧ store_of s2 = store_of s1.
Proof.
  intros Hw Hsig Hlow. pose proof (proj1 (keys_distinct o demo_host)).
  destruct t as [str|j]; [|discriminate Hlow].
  rewrite lower_is_plain in Hlow. apply bool_decide_eq_true in Hlow.
  assert (Htr : truthy (Some (Plain str)) = true).
  { destruct str; [|done]. destruct Hw as [(->&_)|[(->&_)|(->&_)]]; discriminate. }
  destruct Hw as [(->&->&->)|[(->&->&->)|(->&->&->)]];
    unfold applySignal; run; repeat split; by simplify_map_eq.
Qed.

Lemma applySignal_consume_once_witness :
  let '(r1, s1) := applySignal demo_opts (init demo_store_PAUSE) in
  let '(r2, s2) := applySignal demo_opts s1 in
  r1 = inl APause ∧
  store_of s1 = delete (signalKey demo_opts)
                  (<[stateKey demo_opts := EStr (Plain "paused") None]> demo_store_PAUSE) ∧
  r2 = inl ANone ∧ store_of s2 = store_of s1.
Proof.
  apply (applySignal_consume_once demo_opts demo_store_PAUSE (Plain "PAUSE") None
           "pause" APause "paused");
    [left; repeat split | vm_compute; reflexivity | vm_compute; reflexivity].
Defined.

(** ** C4: [shouldStop] *)

(** [getState] only reads. *)
Lemma getState_store (o : options) (s : st) : store_of (getState o s).2 = store_of s.
Proof.
  unfold getState, mbind, M_bind, redis_get, store_op, r_get.
  destruct s as [σ tr [|[] fs] n k]; cbn -[is_lit];
    repeat case_match; simplify_eq/=; done.
Qed.

(** C4. [shouldStop] runs [applySignal] once, then [getState], and returns
    true exactly when the applied signal is [AStop] or the state read is
    [Stopping]; the store it leaves is the one [applySignal] left. *)
Theorem shouldStop_spec (o : options) (s : st) :
  shouldStop o s =
    match applySignal o s with
    | (inl sig, s1) =>
        match getState o s1 with
        | (inl state, s2) =>
            (inl (applied_eqb sig AStop || state_eqb state Stopping), s2)
        | (inr e, s2) => (inr e, s2)
        end
    | (inr e, s1) => (inr e, s1)
    end ∧
  (∀ sig s1, applySignal o s = (inl sig, s1) →
     store_of (shouldStop o s).2 = store_of s1).
Proof.
  unfold shouldStop, mbind, M_bind, mret, M_ret. split.
  - destruct (applySignal o s) as [[sig|e] s1]; [|done].
    by destruct (getState o s1) as [[state|e] s2].
  - intros sig s1 ->. pose proof (getState_store o s1) as Hg.
    destruct (getState o s1) as [[state|e] s2]; done.
Qed.

(** ** C5: [waitIfPaused] returns at once unless the state is paused *)

(** C5. If the state read after the first [applySignal] is not [Paused],
    [waitIfPaused] returns with no further effect.  From state "paused"
    with the signal "stop" pending it returns after exactly these store
    commands (no heartbeat, no sleep), leaves the state "stopping" with the
    signal deleted, and a following [shouldStop] returns true. *)
Theorem waitIfPaused_returns_unless_paused (parse_text : string -> option json)
    (clock : nat -> string) (o : options) (p : host) :
  (∀ fuel s sig s1 state s2,
     applySignal o s = (inl sig, s1) → getState o s1 = (inl state, s2) →
     state ≠ Paused →
     waitIfPaused parse_text clock o p fuel s = (inl (), s2)) ∧
  (∀ fuel σ ttl sttl,
     σ !! stateKey o = Some (EStr (Plain "paused") ttl) →
     σ !! signalKey o = Some (EStr (Plain "stop") sttl) →
     let '(r, s1) := waitIfPaused parse_text clock o p fuel (init σ) in
     r = inl () ∧
     store_of s1 = delete (signalKey o) (<[stateKey o := EStr (Plain "stopping") None]> σ) ∧
     trace s1 = [EOp (CGet (signalKey o));
                 EOp (CSet (stateKey o) (Plain "stopping") None);
                 EOp (CDel (signalKey o)); ELog Warn "Stop signal applied";
                 EOp (CGet (stateKey o))] ∧
     (shouldStop o s1).1 = inl true).
Proof.
  split.
  - intros fuel s sig s1 state s2 Ha Hg Hne.
    unfold waitIfPaused, mbind, M_bind, mret, M_ret.
    rewrite Ha, Hg. by destruct state.
  - intros fuel σ ttl sttl Hst Hsig. keys_facts o p.
    unfold waitIfPaused, shouldStop, applySignal, getState. run.
    repeat split; by simplify_map_eq.
Qed.

Lemma waitIfPaused_returns_unless_paused_witness :
  let '(r, s1) := waitIfPaused demo_parse demo_clock demo_opts demo_host 3
                    (init demo_store_paused_stop) in
  r = inl () ∧
  store_of s1 = delete (signalKey demo_opts)
                  (<[stateKey demo_opts := EStr (Plain "stopping") None]> demo_store_paused_stop) ∧
  trace s1 = [EOp (CGet (signalKey demo_opts));
              EOp (CSet (stateKey demo_opts) (Plain "stopping") None);
              EOp (CDel (signalKey demo_opts)); ELog Warn "Stop signal applied";
              EOp (CGet (stateKey demo_opts))] ∧
  (shouldStop demo_opts s1).1 = inl true.
Proof.
  apply (proj2 (waitIfPaused_returns_unless_paused demo_parse demo_clock demo_opts demo_host)
           3 demo_store_paused_stop None None); vm_compute; reflexivity.
Defined.

(** ** C6: [getState] *)

(** C6. [getState] leaves the store as it is, two calls in a row return
    the same result, and it returns [Running] when the state key is absent
    or holds any text other than "paused" and "stopping". *)
Theorem getState_idempotent_total (o : options) (σ : store) :
  (let '(r1, s1) := getState o (init σ) in
   let '(r2, s2) := getState o s1 in
   store_of s1 = σ ∧ store_of s2 = σ ∧ r1 = r2) ∧
  (σ !! stateKey o = None → (getState o (init σ)).1 = inl Running) ∧
  (∀ v ttl, σ !! stateKey o = Some (EStr v ttl) →
     v ≠ Plain "paused" → v ≠ Plain "stopping" →
     (getState o (init σ)).1 = inl Running).
Proof.
  split; [|split].
  - unfold getState. run; repeat split.
  - intros Hst. unfold getState. by run.
  - intros v ttl Hst Hp Hs. unfold getState. run; try done;
      match goal with
      | E : is_lit _ _ = true |- _ => apply is_lit_true in E; congruence
      end.
Qed.

Lemma getState_idempotent_total_witness :
  (getState demo_opts (init demo_store_garbage)).1 = inl Running.
Proof.
  apply (proj2 (proj2 (getState_idempotent_total demo_opts demo_store_garbage))
           (Plain "Paused!") None); [vm_compute; reflexivity | discriminate | discriminate].
Defined.

(** ** Object literals *)

Lemma assoc_obj_set_eq k v f : assoc k (obj_set k v f) = Some v.
Proof.
  unfold obj_set. destruct (existsb _ f) eqn:E.
  - induction f as [|[k' v'] f IH]; simpl in *; [discriminate|].
    destruct (decide (k' = k)) as [->|Hk].
    + simpl. by rewrite !bool_decide_true.
    + rewrite bool_decide_false in E |- * by done. simpl.
      rewrite bool_decide_false by congruence. by apply IH.
  - induction f as [|[k' v'] f IH]; simpl in *.
    + by rewrite bool_decide_true.
    + destruct (decide (k' = k)) as [->|Hk].
      * rewrite bool_decide_true in E by done. discriminate.
      * rewrite bool_decide_false in E by done.
        rewrite bool_decide_false by congruence. by apply IH.
Qed.

Lemma assoc_obj_set_ne k k' v f : k' ≠ k → assoc k (obj_set k' v f) = assoc k f.
Proof.
  intros Hne. unfold obj_set. destruct (existsb _ f) eqn:E.
  - clear E. induction f as [|[k'' v'] f IH]; simpl; [done|].
    destruct (decide (k'' = k')) as [->|Hk].
    + rewrite bool_decide_true by done. simpl.
      rewrite !bool_decide_false by congruence. done.
    + rewrite bool_decide_false by done. simpl. by rewrite IH.
  - induction f as [|[k'' v'] f IH]; simpl.
    + by rewrite bool_decide_false by congruence.
    + simpl in E. apply orb_false_iff in E as [_ E].
      case_bool_decide; [done|]. by apply IH.
Qed.

Lemma obj_build_app base fs1 fs2 :
  obj_build base (fs1 ++ fs2) = obj_build (obj_build base fs1) fs2.
Proof. apply fold_left_app. Qed.


(** ** C7: [shutdown("manual")] *)

(** C7. For an instance whose descriptor object is stored with TTL 30 and
    whose id is in the instances set, a fault-free [shutdown("manual")]
    sets the state to "stopping", rewrites the descriptor with TTL 10,
    status "stopping" and stopReason "manual", and removes the id from the
    set; [shutdown()] without a reason leaves the same store. *)
Theorem shutdown_manual (parse_text : string -> option json) (clock : nat -> string)
    (o : options) (p : host) (σ : store) (d : list (string * json))
    (ids : gset string) :
  σ !! instanceKey o p = Some (EStr (Json (JObj d)) (Some 30%Z)) →
  σ !! instancesSetKey o = Some (ESet ids) →
  let '(r, s1) := shutdown parse_text clock o p (Some "manual") (init σ) in
  r = inl () ∧
  store_of s1 !! stateKey o = Some (EStr (Plain "stopping") None) ∧
  (∃ body, store_of s1 !! instanceKey o p = Some (EStr (Json (JObj body)) (Some 10%Z)) ∧
     assoc "status" body = Some (JStr "stopping") ∧
     assoc "stopReason" body = Some (JStr "manual")) ∧
  (instanceId p ∉ set_members (store_of s1) (instancesSetKey o)) ∧
  store_of (shutdown parse_text clock o p None (init σ)).2 = store_of s1.
Proof.
  intros Hi Hs. keys_facts o p.
  unfold shutdown, shutdown_body, parse_payload, get_field, set_members. run.
  all: split; [done|]; split; [done|]; split;
    [eexists; split; [reflexivity|]; split;
       repeat (rewrite assoc_obj_set_ne by discriminate); apply assoc_obj_set_eq
    |split; [set_solver|done]].
Qed.

Lemma shutdown_manual_witness :
  let '(r, s1) := shutdown demo_parse demo_clock demo_opts demo_host (Some "manual")
                    (init demo_store_registered) in
  r = inl () ∧
  store_of s1 !! stateKey demo_opts = Some (EStr (Plain "stopping") None) ∧
  (∃ body, store_of s1 !! instanceKey demo_opts demo_host
             = Some (EStr (Json (JObj body)) (Some 10%Z)) ∧
     assoc "status" body = Some (JStr "stopping") ∧
     assoc "stopReason" body = Some (JStr "manual")) ∧
  (instanceId demo_host ∉ set_members (store_of s1) (instancesSetKey demo_opts)) ∧
  store_of (shutdown demo_parse demo_clock demo_opts demo_host None
              (init demo_store_registered)).2 = store_of s1.
Proof.
  apply (shutdown_manual demo_parse demo_clock demo_opts demo_host demo_store_registered
           [("startedAt", JStr "2025-12-31T23:59:59.000Z")] {[instanceId demo_host]});
    vm_compute; reflexivity.
Defined.

(** ** C8: which operations swallow store failures *)

Lemma propagates_ret {A} (a : A) : propagates (mret a).
Proof. by intros s Hne. Qed.

Lemma propagates_pure {A} (m : M A) :
  (∀ s, failures (m s).2 = failures s) → propagates m.
Proof. intros Hm s Hne. by rewrite Hm in Hne. Qed.

Lemma propagates_bind {A B} (m : M A) (k : A → M B) :
  propagates m → (∀ a, propagates (k a)) → propagates (x ← m; k x).
Proof.
  intros Hm Hk s. specialize (Hm s). unfold mbind, M_bind.
  destruct (m s) as [[a|e] s1]; simpl in *; intros Hne.
  - destruct (decide (failures s1 = failures s)) as [Heq|Hne'].
    + apply Hk. by rewrite Heq.
    + by specialize (Hm Hne').
  - specialize (Hm Hne). by injection Hm as ->.
Qed.

Lemma propagates_store_op {A} (c : cmd) (run : store → option (A * store)) :
  propagates (store_op c run).
Proof.
  intros s. unfold store_op.
  destruct (faults s) as [|[] fs]; simpl; try done;
    destruct (run (store_of s)) as [[a σ']|]; simpl; done.
Qed.

Lemma propagates_get_field (j : json) (k : string) : propagates (get_field j k).
Proof. apply propagates_pure. by destruct j. Qed.

Ltac prop :=
  repeat match goal with
  | |- propagates (mbind _ _) => apply propagates_bind; [|intros ?]
  | |- propagates (mret _) => apply propagates_ret
  | |- propagates (store_op _ _) => apply propagates_store_op
  | |- propagates (get_field _ _) => apply propagates_get_field
  | |- propagates (redis_get _) => unfold redis_get
  | |- propagates (redis_set _ _ _) => unfold redis_set
  | |- propagates (redis_sadd _ _) => unfold redis_sadd
  | |- propagates (redis_srem _ _) => unfold redis_srem
  | |- propagates (redis_del _) => unfold redis_del
  | |- propagates (log _ _) => by apply propagates_pure
  | |- propagates (process_on _) => by apply propagates_pure
  | |- propagates (date_now _) => by apply propagates_pure
  | |- propagates (getState _) => unfold getState
  | |- propagates (applySignal _) => unfold applySignal
  | |- propagates (if ?b then _ else _) => destruct b
  | |- propagates (match ?x with _ => _ end) => destruct x
  end.

Lemma shutdown_body_propagates parse_text clock o p reason :
  propagates (shutdown_body parse_text clock o p reason).
Proof. unfold shutdown_body. cbv zeta. prop. Qed.

(** C8. [shutdown] always completes: whatever the store and the failures,
    it resolves, its last effect is the "Shutdown complete" log, and when
    a store command failed the "Error during shutdown" error log comes
    just before it.  [register], [heartbeat] and [applySignal] swallow
    nothing: a run in which a store command failed rejects with
    [StoreError]. *)
Theorem store_failures_policy (parse_text : string -> option json)
    (clock : nat -> string) (o : options) (p : host) :
  (∀ reason s,
     let '(r, s') := shutdown parse_text clock o p reason s in
     r = inl () ∧
     (∃ tr, trace s' = tr ++ [ELog Info "Shutdown complete"]) ∧
     (failures s' ≠ failures s →
        ∃ tr, trace s' = tr ++ [ELog Error "Error during shutdown";
                                ELog Info "Shutdown complete"])) ∧
  propagates (register clock o p) ∧
  (∀ statusOverride, propagates (heartbeat parse_text clock o p statusOverride)) ∧
  propagates (applySignal o).
Proof.
  split; [|split; [|split]].
  - intros reason s. pose proof (shutdown_body_propagates parse_text clock o p reason s) as Hb.
    unfold shutdown, mbind, M_bind, catch, log, emit.
    destruct (shutdown_body parse_text clock o p reason s) as [[u|e] s1]; simpl in *.
    + destruct (decide (failures s1 = failures s)) as [Heq|Hne]; [|by specialize (Hb Hne)].
      split; [done|]. split; [by eexists|]. intros Hne. by destruct Hne.
    + split; [done|]. split; [by eexists|]. intros _. eexists. by rewrite <- app_assoc.
  - unfold register. cbv zeta. prop.
  - intros so. unfold heartbeat. cbv zeta. prop.
  - prop.
Qed.

Lemma store_failures_policy_witness :
  let s := mkSt demo_store_registered [] [true] 0 0 in
  let '(r, s') := shutdown demo_parse demo_clock demo_opts demo_host None s in
  r = inl () ∧
  (∃ tr, trace s' = tr ++ [ELog Info "Shutdown complete"]) ∧
  (failures s' ≠ failures s →
     ∃ tr, trace s' = tr ++ [ELog Error "Error during shutdown";
                             ELog Info "Shutdown complete"]).
Proof.
  apply (proj1 (store_failures_policy demo_parse demo_clock demo_opts demo_host) None).
Defined.

(** ** C9: what [register] writes to the state and signal keys *)

(** Case analysis on the lookups a [well_typed] hypothesis mentions,
    dropping the ill-typed shapes. *)
Ltac wt_cases Hwt :=
  unfold well_typed, set_key_ok, str_key_ok in Hwt;
  repeat match type of Hwt with
  | context [?σ !! ?k] =>
      destruct (σ !! k) as [[]|] eqn:?; simpl in Hwt;
      try discriminate Hwt; try congruence
  end.

Lemma register_frame_keys (clock : nat -> string) (o : options) (p : host) (σ : store) :
  let '(r, s') := register clock o p (init σ) in
  store_of s' !! signalKey o = σ !! signalKey o ∧
  (store_of s' !! stateKey o = σ !! stateKey o ∨
   (store_of s' !! stateKey o = Some (EStr (Plain "running") None) ∧
    (σ !! stateKey o = None ∨ (∃ ttl, σ !! stateKey o = Some (EStr (Plain "") ttl)) ∨
     ((∃ ttl, σ !! stateKey o = Some (EStr (Plain "stopping") ttl)) ∧
      ∀ sttl, σ !! signalKey o ≠ Some (EStr (Plain "stop") sttl))))).
Proof.
  keys_facts o p. unfold register. run; clean_tests.
  all: split; [by simplify_map_eq|].
  all: first
    [ left; by simplify_map_eq
    | right; split; [by simplify_map_eq|];
      first
        [ by left
        | right; left; by eexists
        | right; right; split; [by eexists|];
          intros sttl Hc; simplify_map_eq;
          repeat match goal with E : is_lit _ _ = false |- _ => vm_compute in E end;
          congruence ] ].
Qed.

Lemma register_frame_live_state (clock : nat -> string) (o : options) (p : host)
    (σ : store) (t : text) (ttl : option Z) :
  well_typed o p σ = true → σ !! stateKey o = Some (EStr t ttl) →
  t = Plain "running" ∨ t = Plain "paused" →
  let '(r, s') := register clock o p (init σ) in
  r = inl () ∧ store_of s' !! stateKey o = σ !! stateKey o ∧
  (t = Plain "paused" → (getState o s').1 = inl Paused) ∧
  ∃ d, store_of s' !! instanceKey o p = Some (EStr (Json (JObj d)) (Some (heartbeatTtl o))) ∧
    assoc "status" d = Some (JStr "running").
Proof.
  intros Hwt Hst Ht. keys_facts o p.
  unfold well_typed, str_key_ok in Hwt. rewrite Hst in Hwt.
  destruct Ht as [->| ->]; wt_cases Hwt; unfold register, getState; run.
  all: split; [done|]; split; [done|]; split; [intros; done|].
  all: eexists; split; [reflexivity|]; reflexivity.
Qed.

(** C9 (corrected). On a well-typed store, [register] never writes the
    signal key. It writes the state key only with "running", and only when
    the state read was absent, was the empty string (which the code's
    [!existingState] test treats like an absent key), or was "stopping"
    with no pending exact "stop" signal; otherwise the state key is left
    as it was. When the service-wide state is "running" or "paused",
    [register] succeeds, leaves the state key unchanged (so the service of
    a paused state still reads [Paused]) and writes the instance
    descriptor with status "running". *)
Theorem register_frame (clock : nat -> string) (o : options) (p : host) (σ : store) :
  well_typed o p σ = true →
  let '(r, s') := register clock o p (init σ) in
  store_of s' !! signalKey o = σ !! signalKey o ∧
  (store_of s' !! stateKey o = σ !! stateKey o ∨
   (store_of s' !! stateKey o = Some (EStr (Plain "running") None) ∧
    (σ !! stateKey o = None ∨ (∃ ttl, σ !! stateKey o = Some (EStr (Plain "") ttl)) ∨
     ((∃ ttl, σ !! stateKey o = Some (EStr (Plain "stopping") ttl)) ∧
      ∀ sttl, σ !! signalKey o ≠ Some (EStr (Plain "stop") sttl))))) ∧
  (∀ t ttl, σ !! stateKey o = Some (EStr t ttl) →
     t = Plain "running" ∨ t = Plain "paused" →
     r = inl () ∧ store_of s' !! stateKey o = σ !! stateKey o ∧
     (t = Plain "paused" → (getState o s').1 = inl Paused) ∧
     ∃ d, store_of s' !! instanceKey o p =
            Some (EStr (Json (JObj d)) (Some (heartbeatTtl o))) ∧
          assoc "status" d = Some (JStr "running")).
Proof.
  intros Hwt.
  pose proof (register_frame_keys clock o p σ) as Hk.
  pose proof (fun t ttl => register_frame_live_state clock o p σ t ttl Hwt) as Hl.
  destruct (register clock o p (init σ)) as [r s'].
  destruct Hk as [Hsig Hst]. split; [exact Hsig|]. split; [exact Hst|].
  intros t ttl Ht Hrp. exact (Hl t ttl Ht Hrp).
Qed.

Lemma register_frame_witness :
  well_typed demo_opts demo_host demo_store_paused = true ∧
  let '(r, s') := register demo_clock demo_opts demo_host (init demo_store_paused) in
  store_of s' !! signalKey demo_opts = demo_store_paused !! signalKey demo_opts ∧
  (store_of s' !! stateKey demo_opts = demo_store_paused !! stateKey demo_opts ∨
   (store_of s' !! stateKey demo_opts = Some (EStr (Plain "running") None) ∧
    (demo_store_paused !! stateKey demo_opts = None ∨
     (∃ ttl, demo_store_paused !! stateKey demo_opts = Some (EStr (Plain "") ttl)) ∨
     ((∃ ttl, demo_store_paused !! stateKey demo_opts = Some (EStr (Plain "stopping") ttl)) ∧
      ∀ sttl, demo_store_paused !! signalKey demo_opts ≠ Some (EStr (Plain "stop") sttl))))) ∧
  (∀ t ttl, demo_store_paused !! stateKey demo_opts = Some (EStr t ttl) →
     t = Plain "running" ∨ t = Plain "paused" →
     r = inl () ∧ store_of s' !! stateKey demo_opts = demo_store_paused !! stateKey demo_opts ∧
     (t = Plain "paused" → (getState demo_opts s').1 = inl Paused) ∧
     ∃ d, store_of s' !! instanceKey demo_opts demo_host =
            Some (EStr (Json (JObj d)) (Some (heartbeatTtl demo_opts))) ∧
          assoc "status" d = Some (JStr "running")).
Proof.
  split; [vm_compute; reflexivity|].
  apply (register_frame demo_clock demo_opts demo_host demo_store_paused).
  vm_compute; reflexivity.
Defined.

(** C9 counterexample: the state key holds the empty string, which is
    present and not "stopping"; [register] still overwrites it with
    "running". *)
Lemma register_frame_counterexample :
  demo_store_empty_state !! stateKey demo_opts = Some (EStr (Plain "") None) ∧
  store_of (register demo_clock demo_opts demo_host (init demo_store_empty_state)).2
    !! stateKey demo_opts = Some (EStr (Plain "running") None).
Proof. split; vm_compute; reflexivity. Qed.

(** ** C10: descriptor rewrite in [heartbeat] *)

(** C10 (code bug). When the stored descriptor is the JSON text [null],
    [JSON.parse] succeeds with [null], reading [payload.startedAt] throws a
    [TypeError] outside the [try], and [heartbeat] rejects without writing
    any descriptor: the store is left as it was. *)
Theorem heartbeat_null_descriptor (parse_text : string -> option json)
    (clock : nat -> string) (o : options) (p : host)
    (statusOverride : option service_state) (σ : store) (ttl : option Z) :
  σ !! instanceKey o p = Some (EStr (Json JNull) ttl) →
  let '(r, s') := heartbeat parse_text clock o p statusOverride (init σ) in
  r = inr TypeError ∧ store_of s' = σ.
Proof.
  intros Hk. unfold heartbeat, parse_payload.
  unfold mbind, M_bind, date_now, redis_get, store_op, r_get, get_field, throw; simpl.
  rewrite Hk. simpl. split; reflexivity.
Qed.

Lemma heartbeat_null_descriptor_witness :
  <[instanceKey demo_opts demo_host := EStr (Json JNull) (Some 30%Z)]> (∅ : store)
    !! instanceKey demo_opts demo_host = Some (EStr (Json JNull) (Some 30%Z)) ∧
  let '(r, s') := heartbeat demo_parse demo_clock demo_opts demo_host None
                    (init (<[instanceKey demo_opts demo_host := EStr (Json JNull) (Some 30%Z)]> ∅)) in
  r = inr TypeError ∧
  store_of s' = <[instanceKey demo_opts demo_host := EStr (Json JNull) (Some 30%Z)]> ∅.
Proof.
  split; [vm_compute; reflexivity|].
  apply (heartbeat_null_descriptor demo_parse demo_clock demo_opts demo_host None _ (Some 30%Z)).
  vm_compute; reflexivity.
Defined.

(** * Further properties of the code *)

(** ** Write sets *)

Lemma frame_ret {A} K (a : A) : frame K (mret a).
Proof. by intros s k _. Qed.

Lemma frame_pure {A} K (m : M A) :
  (∀ s, store_of (m s).2 = store_of s) → frame K m.
Proof. intros Hm s k _. by rewrite Hm. Qed.

Lemma frame_bind {A B} K (m : M A) (f : A → M B) :
  frame K m → (∀ a, frame K (f a)) → frame K (x ← m; f x).
Proof.
  intros Hm Hf s k Hk. unfold mbind, M_bind.
  pose proof (Hm s k Hk) as E. destruct (m s) as [[a|e] s1]; simpl in *.
  - by rewrite Hf.
  - done.
Qed.

Lemma frame_catch {A} K (m : M A) (h : err → M A) :
  frame K m → (∀ e, frame K (h e)) → frame K (catch m h).
Proof.
  intros Hm Hh s k Hk. unfold catch.
  pose proof (Hm s k Hk) as E. destruct (m s) as [[a|e] s1]; simpl in *.
  - done.
  - by rewrite Hh.
Qed.

Lemma frame_store_op {A} K c (run : store → option (A * store)) :
  (∀ σ a σ', run σ = Some (a, σ') → ∀ k, k ∉ K → σ' !! k = σ !! k) →
  frame K (store_op c run).
Proof.
  intros Hr s k Hk. unfold store_op.
  destruct (faults s) as [|[] fs]; simpl; try done;
    destruct (run (store_of s)) as [[a σ']|] eqn:E; simpl; try done;
    by eapply Hr.
Qed.

Lemma frame_redis_get K k0 : frame K (redis_get k0).
Proof.
  apply frame_store_op. unfold r_get. intros σ a σ'.
  destruct (σ !! k0) as [[]|]; intros H; by simplify_eq.
Qed.

Lemma frame_redis_set K k0 t ttl : k0 ∈ K → frame K (redis_set k0 t ttl).
Proof.
  intros Hin. apply frame_store_op. unfold r_set. intros σ a σ' H k Hk.
  simplify_eq. apply lookup_insert_ne. set_solver.
Qed.

Lemma frame_redis_sadd K k0 m : k0 ∈ K → frame K (redis_sadd k0 m).
Proof.
  intros Hin. apply frame_store_op. unfold r_sadd. intros σ a σ' H k Hk.
  destruct (σ !! k0) as [[]|]; simplify_eq; apply lookup_insert_ne; set_solver.
Qed.

Lemma frame_redis_srem K k0 m : k0 ∈ K → frame K (redis_srem k0 m).
Proof.
  intros Hin. apply frame_store_op. unfold r_srem. intros σ a σ' H k Hk.
  destruct (σ !! k0) as [[]|]; simplify_eq; try done.
  case_decide; [apply lookup_delete_ne | apply lookup_insert_ne]; set_solver.
Qed.

Lemma frame_redis_del K k0 : k0 ∈ K → frame K (redis_del k0).
Proof.
  intros Hin. apply frame_store_op. unfold r_del. intros σ a σ' H k Hk.
  simplify_eq. apply lookup_delete_ne. set_solver.
Qed.

Ltac frm :=
  repeat match goal with
  | |- frame _ (mbind _ _) => apply frame_bind; [|intros ?]
  | |- frame _ (catch _ _) => apply frame_catch; [|intros ?]
  | |- frame _ (mret _) => apply frame_ret
  | |- frame _ (throw _) => by apply frame_pure
  | |- frame _ (redis_get _) => apply frame_redis_get
  | |- frame _ (redis_set _ _ _) => apply frame_redis_set; set_solver
  | |- frame _ (redis_sadd _ _) => apply frame_redis_sadd; set_solver
  | |- frame _ (redis_srem _ _) => apply frame_redis_srem; set_solver
  | |- frame _ (redis_del _) => apply frame_redis_del; set_solver
  | |- frame _ (get_field ?j _) => apply frame_pure; by destruct j
  | |- frame _ (log _ _) => by apply frame_pure
  | |- frame _ (sleep _) => by apply frame_pure
  | |- frame _ (process_on _) => by apply frame_pure
  | |- frame _ (date_now _) => by apply frame_pure
  | |- frame _ (getState _) => unfold getState
  | |- frame _ (applySignal _) => unfold applySignal
  | |- frame _ (heartbeat _ _ _ _ _) => unfold heartbeat; cbv zeta
  | |- frame _ (if ?b then _ else _) => destruct b
  | |- frame _ (match ?x with _ => _ end) => destruct x
  end.

(** [heartbeat] writes no key other than the instance key of its
    controller, whatever the state and the faults. *)
Lemma heartbeat_frame parse_text clock o p so :
  frame [instanceKey o p] (heartbeat parse_text clock o p so).
Proof. frm. Qed.

(** [applySignal] and [shouldStop] write only the state and signal keys;
    [waitIfPaused] writes only those and the instance key. *)
Lemma control_frame parse_text clock o p fuel :
  frame [stateKey o; signalKey o] (applySignal o) ∧
  frame [stateKey o; signalKey o] (shouldStop o) ∧
  frame [stateKey o; signalKey o; instanceKey o p]
    (waitIfPaused parse_text clock o p fuel).
Proof.
  split; [frm|split; [unfold shouldStop; frm|]].
  unfold waitIfPaused. frm. induction fuel as [|n IH]; simpl; frm; exact IH.
Qed.

(** [register] writes only the services set, the instances set, the
    instance key and the state key; [shutdown] writes only the state key,
    the instance key and the instances set: it never removes the service
    from the services set and never touches the signal key. *)
Lemma lifecycle_frame parse_text clock o p reason :
  frame [servicesSetKey o; instancesSetKey o; instanceKey o p; stateKey o]
    (register clock o p) ∧
  frame [stateKey o; instanceKey o p; instancesSetKey o]
    (shutdown parse_text clock o p reason).
Proof.
  split; [unfold register; cbv zeta; frm|].
  unfold shutdown, shutdown_body. cbv zeta. frm.
Qed.

Lemma string_length_app (a b : string) :
  String.length (a +:+ b) = (String.length a + String.length b)%nat.
Proof. induction a as [|x a IH]; simpl; by rewrite ?IH. Qed.

Lemma append_cancel_r (a b c : string) : a +:+ c = b +:+ c → a = b.
Proof.
  revert b. induction a as [|x a IH]; intros [|y b] H; simpl in *; try done.
  - apply (f_equal String.length) in H. simpl in H. rewrite !string_length_app in H. simpl in H. lia.
  - apply (f_equal String.length) in H. simpl in H. rewrite !string_length_app in H. simpl in H. lia.
  - injection H as -> H. f_equal. by apply IH.
Qed.

(** Under one prefix, two services share a state key, a signal key or an
    instances set only if they have the same name, and the state, signal
    and instances-set keys of any two services never coincide. *)
Lemma service_keys_isolated (o1 o2 : options) :
  prefix o1 = prefix o2 →
  (stateKey o1 = stateKey o2 → serviceName o1 = serviceName o2) ∧
  (signalKey o1 = signalKey o2 → serviceName o1 = serviceName o2) ∧
  (instancesSetKey o1 = instancesSetKey o2 → serviceName o1 = serviceName o2) ∧
  stateKey o1 ≠ signalKey o2 ∧ stateKey o1 ≠ instancesSetKey o2 ∧
  signalKey o1 ≠ instancesSetKey o2.
Proof.
  unfold stateKey, signalKey, instancesSetKey. intros ->.
  split; [intros H; by do 2 apply append_cancel_l in H|].
  split; [intros H; by do 2 apply append_cancel_l in H|].
  split; [intros H; do 2 apply append_cancel_l in H; by apply append_cancel_r in H|].
  repeat split; intros H; apply append_cancel_l in H; simpl in H;
    repeat (injection H as H); discriminate H.
Qed.

Lemma service_keys_isolated_witness :
  (stateKey demo_opts = stateKey demo_opts_other → serviceName demo_opts = serviceName demo_opts_other) ∧
  (signalKey demo_opts = signalKey demo_opts_other → serviceName demo_opts = serviceName demo_opts_other) ∧
  (instancesSetKey demo_opts = instancesSetKey demo_opts_other →
     serviceName demo_opts = serviceName demo_opts_other) ∧
  stateKey demo_opts ≠ signalKey demo_opts_other ∧
  stateKey demo_opts ≠ instancesSetKey demo_opts_other ∧
  signalKey demo_opts ≠ instancesSetKey demo_opts_other.
Proof. apply service_keys_isolated. reflexivity. Defined.

(** ** Register, heartbeat, signals, shutdown *)

Lemma grows_pure {A} (m : M A) : (∀ s, trace (m s).2 = trace s) → grows m.
Proof. intros Hm s. exists []. by rewrite Hm, app_nil_r. Qed.

Lemma grows_emit {A} (m : M A) ev : (∀ s, (m s).2 = emit ev s) → grows m.
Proof. intros Hm s. exists [ev]. by rewrite Hm. Qed.

Lemma grows_bind {A B} (m : M A) (f : A → M B) :
  grows m → (∀ a, grows (f a)) → grows (x ← m; f x).
Proof.
  intros Hm Hf s. unfold mbind, M_bind. destruct (Hm s) as [tr1 E1].
  destruct (m s) as [[a|e] s1]; simpl in *.
  - destruct (Hf a s1) as [tr2 E2]. exists (tr1 ++ tr2). by rewrite E2, E1, app_assoc.
  - by exists tr1.
Qed.

Lemma grows_store_op {A} c (run : store → option (A * store)) : grows (store_op c run).
Proof.
  intros s. exists [EOp c]. unfold store_op.
  destruct (faults s) as [|[] fs]; simpl; try done;
    destruct (run (store_of s)) as [[a σ']|]; done.
Qed.

Lemma ends_bind {A B} evs (m : M A) (f : A → M B) :
  grows m → (∀ a, ends_with evs (f a)) → ends_with evs (x ← m; f x).
Proof.
  intros Hm Hf s b s'. unfold mbind, M_bind. destruct (Hm s) as [tr1 E1].
  destruct (m s) as [[a|e] s1] eqn:Ems; simpl in *; [|done].
  intros Hr. destruct (Hf a s1 b s' Hr) as [tr2 E2].
  exists (tr1 ++ tr2). by rewrite E2, E1, !app_assoc.
Qed.

Ltac grw :=
  repeat match goal with
  | |- grows (mbind _ _) => apply grows_bind; [|intros ?]
  | |- grows (mret _) => by apply grows_pure
  | |- grows (store_op _ _) => apply grows_store_op
  | |- grows (redis_get _) => apply grows_store_op
  | |- grows (redis_set _ _ _) => apply grows_store_op
  | |- grows (redis_sadd _ _) => apply grows_store_op
  | |- grows (redis_srem _ _) => apply grows_store_op
  | |- grows (redis_del _) => apply grows_store_op
  | |- grows (log _ _) => by eapply grows_emit
  | |- grows (process_on _) => by eapply grows_emit
  | |- grows (date_now _) => by apply grows_pure
  | |- grows (if ?b then _ else _) => destruct b
  end.

Lemma bind_ok {A B} (m : M A) (f : A → M B) s a s1 :
  m s = (inl a, s1) → (x ← m; f x) s = f a s1.
Proof. intros E. unfold mbind, M_bind. by rewrite E. Qed.

Lemma bind_store_after {A B} K (m : M A) (f : A → M B) s k :
  (∀ a, frame K (f a)) → k ∉ K →
  store_of ((x ← m; f x) s).2 !! k = store_of (m s).2 !! k.
Proof.
  intros Hf Hk. unfold mbind, M_bind.
  destruct (m s) as [[a|e] s1]; simpl; [by apply Hf|done].
Qed.

Lemma sadd_nofault k m σ tr n t :
  set_key_ok σ k = true →
  redis_sadd k m (mkSt σ tr [] n t) =
    (inl (), mkSt (<[k := ESet ({[m]} ∪ set_members σ k)]> σ)
                  (tr ++ [EOp (CSadd k m)]) [] n t).
Proof.
  unfold set_key_ok, set_members, redis_sadd, store_op, r_sadd. simpl.
  destruct (σ !! k) as [[]|]; simpl; try done. intros _. by rewrite union_empty_r_L.
Qed.

Lemma register_tail_hooks :
  ends_with [EHook "SIGINT"; EHook "SIGTERM"; ELog Info "Service registered"]
    (process_on "SIGINT";; process_on "SIGTERM";; log Info "Service registered").
Proof.
  intros s0 a0 s1 Hr. unfold mbind, M_bind, process_on, log, emit in Hr. simpl in Hr.
  injection Hr as <- <-. exists []. simpl. by rewrite <- !app_assoc.
Qed.

(** On a store where both set keys hold sets or nothing, a fault-free
    [register] adds the service name to the services set and the instance
    id to the instances set, keeping the other members; a successful call
    ends by installing a SIGINT and a SIGTERM hook and logging, whatever
    hooks earlier calls installed. *)
Lemma register_effects clock o p σ tr n t :
  set_key_ok σ (servicesSetKey o) = true → set_key_ok σ (instancesSetKey o) = true →
  let '(r, s') := register clock o p (mkSt σ tr [] n t) in
  set_members (store_of s') (servicesSetKey o) =
    {[serviceName o]} ∪ set_members σ (servicesSetKey o) ∧
  set_members (store_of s') (instancesSetKey o) =
    {[instanceId p]} ∪ set_members σ (instancesSetKey o) ∧
  (r = inl () → ∃ tr', trace s' = tr ++ tr' ++
     [EHook "SIGINT"; EHook "SIGTERM"; ELog Info "Service registered"]).
Proof.
  intros Hs Hi. keys_facts o p.
  assert (Hend : ends_with [EHook "SIGINT"; EHook "SIGTERM"; ELog Info "Service registered"]
                   (register clock o p)).
  { unfold register. cbv zeta.
    repeat (first [apply register_tail_hooks | apply ends_bind; [grw|intros ?]]). }
  pose proof (Hend (mkSt σ tr [] n t)) as He.
  assert (E1 : ∀ k, k ∉ [instancesSetKey o; instanceKey o p; stateKey o] →
            store_of (register clock o p (mkSt σ tr [] n t)).2 !! k =
            store_of (redis_sadd (servicesSetKey o) (serviceName o) (mkSt σ tr [] n (S t))).2 !! k).
  { intros k Hk. unfold register. cbv zeta.
    rewrite (bind_ok _ _ _ (clock t) (mkSt σ tr [] n (S t))) by reflexivity.
    apply (bind_store_after [instancesSetKey o; instanceKey o p; stateKey o]); [intros _; frm|done]. }
  assert (E2 : ∀ k, k ∉ [instanceKey o p; stateKey o] →
            store_of (register clock o p (mkSt σ tr [] n t)).2 !! k =
            store_of (redis_sadd (instancesSetKey o) (instanceId p)
              (mkSt (<[servicesSetKey o := ESet ({[serviceName o]} ∪ set_members σ (servicesSetKey o))]> σ)
                 (tr ++ [EOp (CSadd (servicesSetKey o) (serviceName o))]) [] n (S t))).2 !! k).
  { intros k Hk. unfold register. cbv zeta.
    rewrite (bind_ok _ _ _ (clock t) (mkSt σ tr [] n (S t))) by reflexivity.
    erewrite bind_ok; [|apply sadd_nofault, Hs].
    apply (bind_store_after [instanceKey o p; stateKey o]); [intros _; frm|done]. }
  destruct (register clock o p (mkSt σ tr [] n t)) as [r s'] eqn:Er. simpl in E1, E2.
  split; [|split].
  - unfold set_members at 1. rewrite E1 by set_solver.
    rewrite sadd_nofault by done. simpl. by rewrite lookup_insert_eq.
  - unfold set_members at 1. rewrite E2 by set_solver.
    rewrite sadd_nofault; simpl.
    + rewrite lookup_insert_eq. unfold set_members. by rewrite lookup_insert_ne.
    + unfold set_key_ok. rewrite lookup_insert_ne by done. exact Hi.
  - intros ->. destruct (He () s' eq_refl) as [tr' Htr]. by exists tr'.
Qed.

Lemma register_effects_witness :
  let '(r, s') := register demo_clock demo_opts demo_host (mkSt demo_store_registered [] [] 0 0) in
  set_members (store_of s') (servicesSetKey demo_opts) =
    {[serviceName demo_opts]} ∪ set_members demo_store_registered (servicesSetKey demo_opts) ∧
  set_members (store_of s') (instancesSetKey demo_opts) =
    {[instanceId demo_host]} ∪ set_members demo_store_registered (instancesSetKey demo_opts) ∧
  (r = inl () → ∃ tr', trace s' = [] ++ tr' ++
     [EHook "SIGINT"; EHook "SIGTERM"; ELog Info "Service registered"]).
Proof. apply register_effects; vm_compute; reflexivity. Defined.

(** When the instances-set key holds a string, [register] rejects after
    having added the service to the services set: the descriptor and the
    state are not written. *)
Lemma register_partial_failure clock o p σ tr n t tx ttl :
  set_key_ok σ (servicesSetKey o) = true →
  σ !! instancesSetKey o = Some (EStr tx ttl) →
  register clock o p (mkSt σ tr [] n t) =
    (inr StoreError,
     mkSt (<[servicesSetKey o := ESet ({[serviceName o]} ∪ set_members σ (servicesSetKey o))]> σ)
          (tr ++ [EOp (CSadd (servicesSetKey o) (serviceName o));
                  EOp (CSadd (instancesSetKey o) (instanceId p))]) [] (S n) (S t)).
Proof.
  intros Hs Hi. keys_facts o p. unfold register. cbv zeta.
  rewrite (bind_ok _ _ _ (clock t) (mkSt σ tr [] n (S t))) by reflexivity.
  erewrite bind_ok; [|apply sadd_nofault, Hs].
  unfold mbind at 1, M_bind at 1, redis_sadd at 1, store_op at 1, r_sadd at 1. simpl.
  rewrite lookup_insert_ne, Hi by done. simpl. by rewrite <- app_assoc.
Qed.

Lemma register_partial_failure_witness :
  register demo_clock demo_opts demo_host (mkSt demo_store_bad_instances [] [] 0 0) =
    (inr StoreError,
     mkSt (<[servicesSetKey demo_opts := ESet ({[serviceName demo_opts]} ∪
              set_members demo_store_bad_instances (servicesSetKey demo_opts))]>
             demo_store_bad_instances)
          ([] ++ [EOp (CSadd (servicesSetKey demo_opts) (serviceName demo_opts));
                  EOp (CSadd (instancesSetKey demo_opts) (instanceId demo_host))]) [] 1 1).
Proof. apply (register_partial_failure _ _ _ _ _ _ _ (Plain "x") None); vm_compute; reflexivity. Defined.

Lemma assoc_app k (l1 l2 : list (string * json)) :
  assoc k (l1 ++ l2) = from_option Some (assoc k l2) (assoc k l1).
Proof.
  induction l1 as [|[k' v] l1 IH]; simpl; [by destruct (assoc k l2)|].
  by case_bool_decide.
Qed.

Lemma assoc_obj_build base fs k :
  assoc k (obj_build base fs) = from_option Some (assoc k base) (assoc k (reverse fs)).
Proof.
  revert base. induction fs as [|[k' v] fs IH]; intros base; simpl; [done|].
  unfold obj_build in IH |- *. simpl. rewrite IH, reverse_cons, assoc_app.
  destruct (assoc k (reverse fs)); simpl; [done|].
  case_bool_decide as Hk; simpl.
  - subst. apply assoc_obj_set_eq.
  - by apply assoc_obj_set_ne.
Qed.

Lemma assoc_None k (l : list (string * json)) : k ∉ l.*1 → assoc k l = None.
Proof.
  induction l as [|[k' v] l IH]; simpl; [done|].
  intros Hk. rewrite bool_decide_false by set_solver. apply IH. set_solver.
Qed.

Lemma assoc_obj_build_notin base fs k :
  k ∉ fs.*1 → assoc k (obj_build base fs) = assoc k base.
Proof.
  intros Hk. rewrite assoc_obj_build, (assoc_None k (reverse fs)); [done|].
  rewrite fmap_reverse. intros Hin. apply Hk. exact (proj1 (elem_of_reverse _ _) Hin).
Qed.

Lemma get_nofault k σ tr n t v :
  r_get k σ = Some (v, σ) →
  redis_get k (mkSt σ tr [] n t) = (inl v, mkSt σ (tr ++ [EOp (CGet k)]) [] n t).
Proof. intros E. unfold redis_get, store_op. simpl. by rewrite E. Qed.

Lemma r_get_str k σ tx ttl : σ !! k = Some (EStr tx ttl) → r_get k σ = Some (Some tx, σ).
Proof. unfold r_get. by intros ->. Qed.

Lemma getState_nofault o σ tr n t :
  str_key_ok σ (stateKey o) = true →
  ∃ st, getState o (mkSt σ tr [] n t) =
          (inl st, mkSt σ (tr ++ [EOp (CGet (stateKey o))]) [] n t) ∧
        (getState o (init σ)).1 = inl st.
Proof.
  unfold str_key_ok, getState, mbind, M_bind, redis_get, store_op, r_get, init. simpl.
  destruct (σ !! stateKey o) as [[]|]; simpl; try done; intros _;
    repeat match goal with |- context [is_lit ?x ?w] => destruct (is_lit x w) end;
    eexists; split; reflexivity.
Qed.

Lemma heartbeat_written parse_text clock o p so σ tr n t raw f :
  r_get (instanceKey o p) σ = Some (raw, σ) →
  parse_payload parse_text raw = JObj f →
  str_key_ok σ (stateKey o) = true →
  ∃ st tr', heartbeat parse_text clock o p so (mkSt σ tr [] n t) =
    (inl (), mkSt (<[instanceKey o p := EStr (Json (JObj (obj_build f (identity_fields o p ++
        [("startedAt", nullish (assoc "startedAt" f) (JStr (clock t)));
         ("lastSeen", JStr (clock t)); ("status", JStr (state_str st));
         ("tags", tags_json o); ("meta", meta_json o)]))))
        (Some (heartbeatTtl o))]> σ) tr' [] n (S t)) ∧
    (so = Some st ∨ so = None ∧ (getState o (init σ)).1 = inl st).
Proof.
  intros Hk Hp Hst. unfold heartbeat. cbv zeta.
  rewrite (bind_ok _ _ _ (clock t) (mkSt σ tr [] n (S t))) by reflexivity.
  erewrite bind_ok; [|apply get_nofault, Hk].
  rewrite Hp. erewrite (bind_ok _ _ _ (assoc "startedAt" f)); [|reflexivity].
  assert (∃ st s2, (match so with Some s => mret s | None => getState o end)
              (mkSt σ (tr ++ [EOp (CGet (instanceKey o p))]) [] n (S t)) = (inl st, s2) ∧
            store_of s2 = σ ∧ faults s2 = [] ∧ failures s2 = n ∧ ticks s2 = S t ∧
            (so = Some st ∨ so = None ∧ (getState o (init σ)).1 = inl st))
    as (st & s2 & E & Hσ & Hf & Hn & Ht & Hor).
  { destruct so as [st|].
    - eexists _, _. split; [reflexivity|]. by split; [|split; [|split; [|split; [|left]]]].
    - destruct (getState_nofault o σ (tr ++ [EOp (CGet (instanceKey o p))]) n (S t) Hst)
        as (st & E & Hi).
      eexists _, _. split; [exact E|]. by split; [|split; [|split; [|split; [|right]]]]. }
  rewrite (bind_ok _ _ _ _ _ E).
  destruct s2 as [σ2 tr2 fs2 n2 t2]; simpl in Hσ, Hf, Hn, Ht; subst σ2 fs2 n2 t2.
  exists st. eexists. split; [reflexivity|exact Hor].
Qed.

(** When the stored descriptor parses to an object, [heartbeat] succeeds
    and rewrites it with the heartbeat TTL: fields other than the ten it
    sets are kept, [startedAt] is kept unless missing or null, [lastSeen]
    is now, [tags] and [meta] come from the options, and [status] is the
    override or else the state read by [getState]. *)
Lemma heartbeat_object_descriptor parse_text clock o p so σ tr n t tx ttl f :
  σ !! instanceKey o p = Some (EStr tx ttl) →
  parse_payload parse_text (Some tx) = JObj f →
  str_key_ok σ (stateKey o) = true →
  let '(r, s') := heartbeat parse_text clock o p so (mkSt σ tr [] n t) in
  r = inl () ∧
  ∃ body, store_of s' !! instanceKey o p =
            Some (EStr (Json (JObj body)) (Some (heartbeatTtl o))) ∧
    (∀ k, k ∉ ["serviceName"; "appType"; "instanceId"; "hostname"; "pid";
               "startedAt"; "lastSeen"; "status"; "tags"; "meta"] →
          assoc k body = assoc k f) ∧
    assoc "startedAt" body = Some (nullish (assoc "startedAt" f) (JStr (clock t))) ∧
    assoc "lastSeen" body = Some (JStr (clock t)) ∧
    assoc "tags" body = Some (tags_json o) ∧ assoc "meta" body = Some (meta_json o) ∧
    ∃ st, assoc "status" body = Some (JStr (state_str st)) ∧
          (so = Some st ∨ so = None ∧ (getState o (init σ)).1 = inl st).
Proof.
  intros Hk Hp Hst.
  destruct (heartbeat_written parse_text clock o p so σ tr n t (Some tx) f)
    as (st & tr' & E & Hor); [by apply r_get_str in Hk|done|done|].
  rewrite E. split; [done|]. cbn -[obj_build identity_fields].
  eexists. split; [by rewrite lookup_insert_eq|].
  split; [|split; [|split; [|split; [|split]]]].
  - intros k Hk'. apply assoc_obj_build_notin. unfold identity_fields. simpl. exact Hk'.
  - rewrite assoc_obj_build. unfold identity_fields. reflexivity.
  - rewrite assoc_obj_build. unfold identity_fields. reflexivity.
  - rewrite assoc_obj_build. unfold identity_fields. reflexivity.
  - rewrite assoc_obj_build. unfold identity_fields. reflexivity.
  - exists st. split; [|exact Hor].
    rewrite assoc_obj_build. unfold identity_fields. reflexivity.
Qed.

Lemma heartbeat_object_descriptor_witness :
  let '(r, s') := heartbeat demo_parse demo_clock demo_opts demo_host None
                    (mkSt demo_store_registered [] [] 0 0) in
  r = inl () ∧
  ∃ body, store_of s' !! instanceKey demo_opts demo_host =
            Some (EStr (Json (JObj body)) (Some (heartbeatTtl demo_opts))) ∧
    (∀ k, k ∉ ["serviceName"; "appType"; "instanceId"; "hostname"; "pid";
               "startedAt"; "lastSeen"; "status"; "tags"; "meta"] →
          assoc k body = assoc k [("startedAt", JStr "2025-12-31T23:59:59.000Z")]) ∧
    assoc "startedAt" body =
      Some (nullish (assoc "startedAt" [("startedAt", JStr "2025-12-31T23:59:59.000Z")])
                    (JStr (demo_clock 0))) ∧
    assoc "lastSeen" body = Some (JStr (demo_clock 0)) ∧
    assoc "tags" body = Some (tags_json demo_opts) ∧
    assoc "meta" body = Some (meta_json demo_opts) ∧
    ∃ st, assoc "status" body = Some (JStr (state_str st)) ∧
          (None = Some st ∨ None = @None service_state ∧
             (getState demo_opts (init demo_store_registered)).1 = inl st).
Proof.
  apply (heartbeat_object_descriptor _ _ _ _ _ _ _ _ _
           (Json (JObj [("startedAt", JStr "2025-12-31T23:59:59.000Z")])) (Some 30%Z));
    vm_compute; reflexivity.
Defined.

(** When the stored descriptor is absent, empty or unparseable,
    [heartbeat] writes a fresh descriptor holding only the ten fields it
    sets, with [startedAt] equal to [lastSeen]. *)
Lemma heartbeat_fresh_descriptor parse_text clock o p so σ tr n t :
  (σ !! instanceKey o p = None ∨
   (∃ ttl, σ !! instanceKey o p = Some (EStr (Plain "") ttl)) ∨
   (∃ s ttl, σ !! instanceKey o p = Some (EStr (Plain s) ttl) ∧ parse_text s = None)) →
  str_key_ok σ (stateKey o) = true →
  let '(r, s') := heartbeat parse_text clock o p so (mkSt σ tr [] n t) in
  r = inl () ∧
  ∃ body, store_of s' !! instanceKey o p =
            Some (EStr (Json (JObj body)) (Some (heartbeatTtl o))) ∧
    (∀ k, k ∉ ["serviceName"; "appType"; "instanceId"; "hostname"; "pid";
               "startedAt"; "lastSeen"; "status"; "tags"; "meta"] →
          assoc k body = None) ∧
    assoc "startedAt" body = Some (JStr (clock t)) ∧
    assoc "lastSeen" body = Some (JStr (clock t)).
Proof.
  intros Hraw Hst.
  assert (∃ raw, r_get (instanceKey o p) σ = Some (raw, σ) ∧
                 parse_payload parse_text raw = JObj []) as (raw & Hk & Hp).
  { unfold r_get, parse_payload.
    destruct Hraw as [->|[[ttl ->]|(s & ttl & -> & Hs)]].
    - by eexists.
    - by eexists.
    - eexists. split; [done|]. destruct (truthy _); [|done]. by rewrite Hs. }
  destruct (heartbeat_written parse_text clock o p so σ tr n t raw [])
    as (st & tr' & E & _); [done|done|done|].
  rewrite E. split; [done|]. cbn -[obj_build identity_fields].
  eexists. split; [by rewrite lookup_insert_eq|].
  split; [|split].
  - intros k Hk'. rewrite assoc_obj_build_notin; [done|]. unfold identity_fields. simpl. exact Hk'.
  - rewrite assoc_obj_build. unfold identity_fields. reflexivity.
  - rewrite assoc_obj_build. unfold identity_fields. reflexivity.
Qed.

Lemma heartbeat_fresh_descriptor_witness :
  let '(r, s') := heartbeat demo_parse demo_clock demo_opts demo_host (Some Paused)
                    (mkSt demo_store_paused [] [] 0 0) in
  r = inl () ∧
  ∃ body, store_of s' !! instanceKey demo_opts demo_host =
            Some (EStr (Json (JObj body)) (Some (heartbeatTtl demo_opts))) ∧
    (∀ k, k ∉ ["serviceName"; "appType"; "instanceId"; "hostname"; "pid";
               "startedAt"; "lastSeen"; "status"; "tags"; "meta"] →
          assoc k body = None) ∧
    assoc "startedAt" body = Some (JStr (demo_clock 0)) ∧
    assoc "lastSeen" body = Some (JStr (demo_clock 0)).
Proof.
  apply heartbeat_fresh_descriptor; [left; vm_compute; reflexivity|vm_compute; reflexivity].
Defined.

(** [applySignal] on a pending signal: an empty value is left in place and
    ignored; any other value is deleted, and its lower-cased form selects
    the state written (pause, resume, stop) or, for an unknown value,
    leaves the state unchanged and returns none. *)
Lemma applySignal_table o σ tr n t s ttl :
  σ !! signalKey o = Some (EStr (Plain s) ttl) →
  let '(r, s') := applySignal o (mkSt σ tr [] n t) in
  (s = "" → r = inl ANone ∧ store_of s' = σ) ∧
  (s ≠ "" → store_of s' !! signalKey o = None ∧
    (to_lower s = "pause" →
       r = inl APause ∧ store_of s' !! stateKey o = Some (EStr (Plain "paused") None)) ∧
    (to_lower s = "resume" →
       r = inl AResume ∧ store_of s' !! stateKey o = Some (EStr (Plain "running") None)) ∧
    (to_lower s = "stop" →
       r = inl AStop ∧ store_of s' !! stateKey o = Some (EStr (Plain "stopping") None)) ∧
    (to_lower s ≠ "pause" → to_lower s ≠ "resume" → to_lower s ≠ "stop" →
       r = inl ANone ∧ store_of s' !! stateKey o = σ !! stateKey o)).
Proof.
  intros Hsig. pose proof (proj1 (keys_distinct o demo_host)) as Hne.
  unfold applySignal, mbind, M_bind, redis_get, store_op, r_get. simpl. rewrite Hsig. simpl.
  destruct (decide (s = "")) as [->|Hs].
  { split; [done|]. by intros []. }
  assert (truthy (Some (Plain s)) = true) as ->.
  { destruct s; [done|]. reflexivity. }
  simpl. rewrite !lower_is_plain.
  unfold redis_set, redis_del, store_op, r_set, r_del, log, emit, mret, M_ret.
  repeat case_bool_decide; simpl; simplify_map_eq;
    (split; [by intros ->|]); intros _; repeat split; try done; intros; congruence.
Qed.

Lemma applySignal_table_witness :
  let '(r, s') := applySignal demo_opts (mkSt demo_store_PAUSE [] [] 0 0) in
  ("PAUSE" = "" → r = inl ANone ∧ store_of s' = demo_store_PAUSE) ∧
  ("PAUSE" ≠ "" → store_of s' !! signalKey demo_opts = None ∧
    (to_lower "PAUSE" = "pause" →
       r = inl APause ∧ store_of s' !! stateKey demo_opts = Some (EStr (Plain "paused") None)) ∧
    (to_lower "PAUSE" = "resume" →
       r = inl AResume ∧ store_of s' !! stateKey demo_opts = Some (EStr (Plain "running") None)) ∧
    (to_lower "PAUSE" = "stop" →
       r = inl AStop ∧ store_of s' !! stateKey demo_opts = Some (EStr (Plain "stopping") None)) ∧
    (to_lower "PAUSE" ≠ "pause" → to_lower "PAUSE" ≠ "resume" → to_lower "PAUSE" ≠ "stop" →
       r = inl ANone ∧ store_of s' !! stateKey demo_opts = demo_store_PAUSE !! stateKey demo_opts)).
Proof. apply (applySignal_table _ _ _ _ _ _ None). vm_compute. reflexivity. Defined.

(** When the stored descriptor is the JSON text [null], [shutdown] sets the
    state to stopping, hits the [TypeError], logs it and completes: the
    descriptor is not rewritten and the instance stays in the instances
    set. *)
Lemma shutdown_null_descriptor parse_text clock o p reason σ tr n t ttl :
  σ !! instanceKey o p = Some (EStr (Json JNull) ttl) →
  shutdown parse_text clock o p reason (mkSt σ tr [] n t) =
    (inl (), mkSt (<[stateKey o := EStr (Plain "stopping") None]> σ)
                  (tr ++ [EOp (CSet (stateKey o) (Plain "stopping") None);
                          EOp (CGet (instanceKey o p));
                          ELog Error "Error during shutdown";
                          ELog Info "Shutdown complete"]) [] n t).
Proof.
  intros Hk. keys_facts o p.
  unfold shutdown, shutdown_body, catch, mbind, M_bind, redis_set, redis_get, store_op,
    r_set, r_get, log, emit. simpl.
  rewrite lookup_insert_ne, Hk by done. simpl. by rewrite <- !app_assoc.
Qed.

Lemma shutdown_null_descriptor_witness :
  shutdown demo_parse demo_clock demo_opts demo_host None (mkSt demo_store_null_descriptor [] [] 0 0) =
    (inl (), mkSt (<[stateKey demo_opts := EStr (Plain "stopping") None]> demo_store_null_descriptor)
                  ([] ++ [EOp (CSet (stateKey demo_opts) (Plain "stopping") None);
                          EOp (CGet (instanceKey demo_opts demo_host));
                          ELog Error "Error during shutdown";
                          ELog Info "Shutdown complete"]) [] 0 0).
Proof. apply (shutdown_null_descriptor _ _ _ _ _ _ _ _ _ (Some 30%Z)). vm_compute. reflexivity. Defined.

Lemma pause_loop_blocks parse_text clock o p fuel :
  ∀ σ tr n t ttl raw f,
  σ !! stateKey o = Some (EStr (Plain "paused") ttl) → σ !! signalKey o = None →
  r_get (instanceKey o p) σ = Some (raw, σ) → parse_payload parse_text raw = JObj f →
  (pause_loop parse_text clock o p fuel (mkSt σ tr [] n t)).1 = inr OutOfFuel.
Proof.
  keys_facts o p.
  induction fuel as [|fuel IH]; intros σ tr n t ttl raw f Hst Hsig Hk Hp; [done|].
  cbn [pause_loop].
  destruct (heartbeat_written parse_text clock o p (Some Paused) σ tr n t raw f)
    as (st & tr' & E & Hor); [done|done|unfold str_key_ok; by rewrite Hst|].
  destruct Hor as [Hor|[Hor _]]; [|discriminate]. injection Hor as <-.
  rewrite (bind_ok _ _ _ _ _ E).
  unfold applySignal, getState, mbind, M_bind, redis_get, store_op, r_get, sleep, emit.
  cbn -[pause_loop is_lit truthy lower_is obj_build identity_fields].
  rewrite lookup_insert_ne, Hsig by done.
  cbn -[pause_loop is_lit truthy lower_is obj_build identity_fields].
  rewrite lookup_insert_ne, Hst by done.
  cbn -[pause_loop is_lit truthy lower_is obj_build identity_fields].
  rewrite is_lit_plain, bool_decide_true by done.
  cbn -[pause_loop is_lit truthy lower_is obj_build identity_fields].
  eapply IH.
  - rewrite lookup_insert_ne by done. exact Hst.
  - rewrite lookup_insert_ne by done. exact Hsig.
  - unfold r_get. by rewrite lookup_insert_eq.
  - reflexivity.
Qed.

(** While the state is paused and no signal is pending, [waitIfPaused]
    does not return: every bound on the iterations of its loop is
    exhausted. *)
Lemma waitIfPaused_blocks parse_text clock o p fuel σ ttl :
  σ !! stateKey o = Some (EStr (Plain "paused") ttl) → σ !! signalKey o = None →
  (σ !! instanceKey o p = None ∨
   ∃ f ttl', σ !! instanceKey o p = Some (EStr (Json (JObj f)) ttl')) →
  (waitIfPaused parse_text clock o p fuel (init σ)).1 = inr OutOfFuel.
Proof.
  intros Hst Hsig Hk.
  assert (∃ raw f, r_get (instanceKey o p) σ = Some (raw, σ) ∧
                   parse_payload parse_text raw = JObj f) as (raw & f & Hr & Hp).
  { unfold r_get. destruct Hk as [->|(f & ttl' & ->)]; by do 2 eexists. }
  unfold waitIfPaused, applySignal, getState, mbind, M_bind, redis_get, store_op, r_get,
    log, emit, init.
  cbn -[pause_loop is_lit truthy lower_is].
  rewrite Hsig. cbn -[pause_loop is_lit truthy lower_is].
  rewrite Hst. cbn -[pause_loop is_lit truthy lower_is].
  rewrite is_lit_plain, bool_decide_true by done.
  cbn -[pause_loop is_lit truthy lower_is].
  by eapply pause_loop_blocks.
Qed.

Lemma waitIfPaused_blocks_witness :
  (waitIfPaused demo_parse demo_clock demo_opts demo_host 3 (init demo_store_paused)).1 = inr OutOfFuel.
Proof.
  apply (waitIfPaused_blocks _ _ _ _ _ _ None);
    [vm_compute; reflexivity|vm_compute; reflexivity|left; vm_compute; reflexivity].
Defined.

(** ** Logger *)

Lemma meta_get_set_eq k v f : meta_get k (meta_set k v f) = Some v.
Proof.
  unfold meta_set. destruct (existsb _ f) eqn:E.
  - induction f as [|[k' v'] f IH]; simpl in *; [discriminate|].
    destruct (decide (k' = k)) as [->|Hk].
    + simpl. by rewrite !bool_decide_true.
    + rewrite bool_decide_false in E |- * by done. simpl.
      rewrite bool_decide_false by congruence. by apply IH.
  - induction f as [|[k' v'] f IH]; simpl in *.
    + by rewrite bool_decide_true.
    + apply orb_false_iff in E as [E1 E]. rewrite bool_decide_false; [by apply IH|].
      intros ->. by rewrite bool_decide_true in E1.
Qed.

Lemma meta_get_set_ne k k' v f : k' ≠ k → meta_get k (meta_set k' v f) = meta_get k f.
Proof.
  intros Hne. unfold meta_set. destruct (existsb _ f) eqn:E.
  - clear E. induction f as [|[k'' v'] f IH]; simpl; [done|].
    destruct (decide (k'' = k')) as [->|Hk].
    + rewrite bool_decide_true by done. simpl.
      rewrite !bool_decide_false by congruence. done.
    + rewrite bool_decide_false by done. simpl. by rewrite IH.
  - induction f as [|[k'' v'] f IH]; simpl.
    + by rewrite bool_decide_false by congruence.
    + simpl in E. apply orb_false_iff in E as [_ E]. case_bool_decide; [done|]. by apply IH.
Qed.

Lemma meta_get_fold k fs base :
  NoDup fs.*1 →
  meta_get k (fold_left (fun acc kv => meta_set kv.1 kv.2 acc) fs base) =
    from_option Some (meta_get k base) (meta_get k fs).
Proof.
  revert base. induction fs as [|[k' v] fs IH]; intros base Hnd; simpl; [done|].
  apply NoDup_cons in Hnd as [Hk' Hnd]. rewrite IH by done.
  case_bool_decide as Hk; simpl.
  - subst. destruct (meta_get k' fs) eqn:Eg.
    + exfalso. apply Hk'. clear -Eg. induction fs as [|[k'' v''] fs IH]; simpl in *; [done|].
      case_bool_decide; subst; [left|right; by apply IH].
    + simpl. apply meta_get_set_eq.
  - destruct (meta_get k fs); simpl; [done|]. by apply meta_get_set_ne.
Qed.

(** [logger.error] with an [Error] forwards the error's message and the
    meta object [{ error, ...meta }]: an [error] field of [meta] replaces
    the [Error] itself, and the other meta fields are forwarded as given. *)
Lemma logger_error_meta m meta k :
  NoDup (default [] meta).*1 →
  (logger_error (LErr m) meta).1 = m ∧
  ∃ fwd, (logger_error (LErr m) meta).2 = Some fwd ∧
    meta_get "error" fwd =
      Some (from_option (fun v => v) (MError m) (meta_get "error" (default [] meta))) ∧
    (k ≠ "error" → meta_get k fwd = meta_get k (default [] meta)).
Proof.
  intros Hnd. split; [done|]. eexists. split; [reflexivity|].
  rewrite !meta_get_fold by done. split.
  - simpl. by destruct (meta_get "error" _).
  - intros Hk. simpl. rewrite bool_decide_false by done.
    by destruct (meta_get k _).
Qed.

Lemma logger_error_meta_witness :
  (logger_error (LErr "boom") (Some demo_meta)).1 = "boom" ∧
  ∃ fwd, (logger_error (LErr "boom") (Some demo_meta)).2 = Some fwd ∧
    meta_get "error" fwd =
      Some (from_option (fun v => v) (MError "boom") (meta_get "error" (default [] (Some demo_meta)))) ∧
    ("requestId" ≠ "error" → meta_get "requestId" fwd = meta_get "requestId" (default [] (Some demo_meta))).
Proof. apply logger_error_meta. apply (bool_decide_unpack _). vm_compute. exact I. Defined.
